(** * Roster: the player collection, its validation gate and its sorted view

    A shallow embedding of the [Roster] component (React function component,
    TypeScript) and the properties of its record lifecycle and ordering.

    Conventions of the embedding
    - A JavaScript string is a Rocq [string]; every [ascii] stands for one
      UTF-16 code unit in the range 0..255, so [String.ltb] is the [<] of
      JavaScript on such strings.
    - A JavaScript number that the component computes is either [NaN] or an
      integer ([Num z]); exact for magnitudes below 2^53, which covers every
      numeral of at most 15 characters and every [Date.now()].
    - React state is one record [State]; a handler is a function
      [State -> State] that applies the setters in the order the source
      calls them, reading the values of the render it closes over.
    - The array held in [players] has an identity ([players_ref]); every
      [setPlayers] stores a freshly built array, and the effect that depends
      on [[players]] fires when that identity changes. *)

From Stdlib Require Import ZArith Ascii String.
From stdpp Require Import base gmap strings list sorting.

Local Open Scope string_scope.
Local Open Scope Z_scope.
Local Open Scope list_scope.

(** ** Data model *)

(** [interface Player] *)
Record Player := mkPlayer {
  id : Z;
  name : string;
  position : string;
  year : string;
  rating : string
}.

(** The form buffer [newPlayer : Omit<Player, 'id'>]. [startEditing] stores a
    whole player in it, so at run time the object may carry an [id]
    property; [d_id] keeps it. *)
Record Draft := mkDraft {
  d_id : option Z;
  d_name : string;
  d_position : string;
  d_year : string;
  d_rating : string
}.

Definition positions : list string :=
  ["QB"; "RB"; "WR"; "TE"; "OL"; "DL"; "LB"; "CB"; "S"; "K"; "P"].

Definition years : list string :=
  ["FR"; "FR (RS)"; "SO"; "SO (RS)"; "JR"; "JR (RS)"; "SR"; "SR (RS)"].

(** [type SortField = 'name' | 'position' | 'year' | 'rating'] *)
Inductive SortField := F_name | F_position | F_year | F_rating.

Inductive Direction := asc | desc.

Record SortConfig := mkSort { field : SortField; direction : Direction }.

Global Instance SortField_eq_dec : EqDecision SortField.
Proof. solve_decision. Defined.

Global Instance Direction_eq_dec : EqDecision Direction.
Proof. solve_decision. Defined.

Global Instance Player_eq_dec : EqDecision Player.
Proof. solve_decision. Defined.

(** [yearOrder]: the rank table. A key that is absent reads as [undefined]
    (or, for a name found on [Object.prototype], as a function); either way
    arithmetic on the value is [NaN], which is what [None] stands for. *)
Definition yearOrder : gmap string Z :=
  list_to_map
    [("FR", 0); ("FR (RS)", 1); ("SO", 2); ("SO (RS)", 3);
     ("JR", 4); ("JR (RS)", 5); ("SR", 6); ("SR (RS)", 7)].

(** ** JavaScript numbers, as far as the comparator needs them *)

Inductive number := NaN | Num (z : Z).

Definition toNumber (o : option Z) : number :=
  match o with Some z => Num z | None => NaN end.

(** [x - y] *)
Definition sub (x y : number) : number :=
  match x, y with
  | Num a, Num b => Num (a - b)
  | _, _ => NaN
  end.

(** [-x] *)
Definition neg (x : number) : number :=
  match x with Num a => Num (- a) | NaN => NaN end.

(** *** [parseInt(string)] with no radix argument *)

(** WhiteSpace and LineTerminator code units below 256: TAB, LF, VT, FF, CR,
    SP and NBSP. *)
Definition isWhiteSpace (c : ascii) : bool :=
  let n := Z.of_N (N_of_ascii c) in
  ((9 <=? n) && (n <=? 13)) || (n =? 32) || (n =? 160).

Fixpoint trimStart (s : string) : string :=
  match s with
  | String c s' => if isWhiteSpace c then trimStart s' else s
  | EmptyString => EmptyString
  end.

Definition digitValue (c : ascii) : option Z :=
  let n := Z.of_N (N_of_ascii c) in
  if (48 <=? n) && (n <=? 57) then Some (n - 48)
  else if (97 <=? n) && (n <=? 102) then Some (n - 87)
  else if (65 <=? n) && (n <=? 70) then Some (n - 55)
  else None.

Definition radixDigit (R : Z) (c : ascii) : option Z :=
  match digitValue c with
  | Some d => if d <? R then Some d else None
  | None => None
  end.

(** The value of the longest prefix of radix-[R] digits; [None] when that
    prefix is empty. *)
Fixpoint parseDigits (R : Z) (acc : option Z) (s : string) : option Z :=
  match s with
  | String c s' =>
      match radixDigit R c with
      | Some d => parseDigits R (Some (default 0 acc * R + d)) s'
      | None => acc
      end
  | EmptyString => acc
  end.

Definition parseInt (input : string) : number :=
  let S := trimStart input in
  let '(sign, S1) :=
    match S with
    | String "-" r => (-1, r)
    | String "+" r => (1, r)
    | _ => (1, S)
    end in
  let '(R, S2) :=
    match S1 with
    | String "0" (String "x" r) => (16, r)
    | String "0" (String "X" r) => (16, r)
    | _ => (10, S1)
    end in
  match parseDigits R None S2 with
  | Some mathInt => Num (sign * mathInt)
  | None => NaN
  end.

(** ** [Array.prototype.sort] with a comparator *)

Section Sort.
Context {A : Type}.
Variable comparefn : A -> A -> number.

(** The value the sort works with: a [NaN] from the comparator is read
    as [+0]. *)
Definition SortCompare (x y : A) : Z :=
  match comparefn x y with
  | NaN => 0
  | Num v => v
  end.

(** The sort is stable and, for a consistent comparator, returns the
    elements in the comparator's order; the order of the calls to the
    comparator is left to the engine. The model is the stable insertion
    sort: [x], which stood before every element of [l], goes in front of
    the first [y] that does not have to precede it. For a comparator that
    is not a consistent order (as with [NaN] results) this is one of the
    arrangements an engine may return. *)
Fixpoint sort_insert (x : A) (l : list A) : list A :=
  match l with
  | [] => [x]
  | y :: l' =>
      if SortCompare x y <=? 0 then x :: y :: l' else y :: sort_insert x l'
  end.

Definition js_sort (l : list A) : list A := foldr sort_insert [] l.
End Sort.

(** ** The sorted view *)

Definition getField (f : SortField) (p : Player) : string :=
  match f with
  | F_name => name p
  | F_position => position p
  | F_year => year p
  | F_rating => rating p
  end.

(** The comparator passed to [sort] in [sortedPlayers]. *)
Definition comparePlayers (sortConfig : SortConfig) (a b : Player) : number :=
  match field sortConfig with
  | F_year =>
      let yearDiff :=
        sub (toNumber (yearOrder !! year a)) (toNumber (yearOrder !! year b)) in
      if decide (direction sortConfig = asc) then yearDiff else neg yearDiff
  | F_rating =>
      if decide (direction sortConfig = asc)
      then sub (parseInt (rating a)) (parseInt (rating b))
      else sub (parseInt (rating b)) (parseInt (rating a))
  | f =>
      if String.ltb (getField f a) (getField f b)
      then (if decide (direction sortConfig = asc) then Num (-1) else Num 1)
      else if String.ltb (getField f b) (getField f a)
      then (if decide (direction sortConfig = asc) then Num 1 else Num (-1))
      else Num 0
  end.

(** [const sortedPlayers = [...players].sort(...)] *)
Definition sortedPlayers (sortConfig : SortConfig) (players : list Player)
  : list Player :=
  js_sort (comparePlayers sortConfig) players.

(** ** Component state *)

Inductive Toast := toast_success (msg : string) | toast_error (msg : string).

(** The values of the [useLocalStorage] and [useState] hooks of one render,
    and the notifications shown so far (oldest first). *)
Record State := mkState {
  players : list Player;
  players_ref : nat;
  newPlayer : Draft;
  editingId : option Z;
  sortConfig : SortConfig;
  errors : gmap string string;
  toasts : list Toast
}.

(** Modelled from the spec: the [useLocalStorage] hook ('@/hooks/useLocalStorage')
    is not part of the component. Its setter is the store's [write]: it
    "replaces the in-memory collection" wholesale; the durable copy is
    outside this model. The array handed over is always a new object, hence
    the new identity. *)
Definition setPlayers (v : list Player) (st : State) : State :=
  mkState v (S (players_ref st)) (newPlayer st) (editingId st)
          (sortConfig st) (errors st) (toasts st).

Definition setNewPlayer (v : Draft) (st : State) : State :=
  mkState (players st) (players_ref st) v (editingId st)
          (sortConfig st) (errors st) (toasts st).

Definition setEditingId (v : option Z) (st : State) : State :=
  mkState (players st) (players_ref st) (newPlayer st) v
          (sortConfig st) (errors st) (toasts st).

Definition setSortConfig (v : SortConfig) (st : State) : State :=
  mkState (players st) (players_ref st) (newPlayer st) (editingId st)
          v (errors st) (toasts st).

Definition setErrors (v : gmap string string) (st : State) : State :=
  mkState (players st) (players_ref st) (newPlayer st) (editingId st)
          (sortConfig st) v (toasts st).

Definition toast (t : Toast) (st : State) : State :=
  mkState (players st) (players_ref st) (newPlayer st) (editingId st)
          (sortConfig st) (errors st) (toasts st ++ [t]).

(** [{ name: '', position: '', year: '', rating: '' }] *)
Definition emptyDraft : Draft := mkDraft None "" "" "" "".

(** [{ field: 'rating', direction: 'desc' }] *)
Definition defaultSort : SortConfig := mkSort F_rating desc.

(** The first render, with [stored] the collection the store starts from. *)
Definition initialState (stored : list Player) : State :=
  mkState stored 0 emptyDraft None defaultSort ∅ [].

(** A player object used as the form buffer ([setNewPlayer(player)]). *)
Definition draftOfPlayer (p : Player) : Draft :=
  mkDraft (Some (id p)) (name p) (position p) (year p) (rating p).

(** [{ ...newPlayer, [f]: value }], the [onChange] / [onValueChange]
    handlers of the four inputs. *)
Definition withField (f : SortField) (value : string) (d : Draft) : Draft :=
  match f with
  | F_name => mkDraft (d_id d) value (d_position d) (d_year d) (d_rating d)
  | F_position => mkDraft (d_id d) (d_name d) value (d_year d) (d_rating d)
  | F_year => mkDraft (d_id d) (d_name d) (d_position d) value (d_rating d)
  | F_rating => mkDraft (d_id d) (d_name d) (d_position d) (d_year d) value
  end.

Definition changeField (f : SortField) (value : string) (st : State) : State :=
  setNewPlayer (withField f value (newPlayer st)) st.

(** [requestSort] *)
Definition requestSort (f : SortField) (st : State) : State :=
  let prevConfig := sortConfig st in
  setSortConfig
    (mkSort f
       (if decide (field prevConfig = f ∧ direction prevConfig = asc)
        then desc else asc))
    st.

(** [startEditing] *)
Definition startEditing (player : Player) (st : State) : State :=
  setNewPlayer (draftOfPlayer player) (setEditingId (Some (id player)) st).

(** [cancelEdit] *)
Definition cancelEdit (st : State) : State :=
  setNewPlayer emptyDraft (setEditingId None st).

(** [removePlayer] *)
Definition removePlayer (i : Z) (st : State) : State :=
  setPlayers (filter (λ player, id player ≠ i) (players st)) st.

(** The effect [useEffect(() => setSortConfig({rating, desc}), [players])],
    run after the render that follows a handler: it fires when the
    dependency is not the object of the previous render. *)
Definition playersEffect (prev next : State) : State :=
  if decide (players_ref next = players_ref prev) then next
  else setSortConfig defaultSort next.

(** The helpers the component imports: [validateName], [validatePosition]
    and [validateRating] from '@/utils/validationUtils', [capitalizeName]
    from '@/utils'. They are not part of the component, which is modelled
    for arbitrary ones. *)
Class Imports := {
  validateName : string -> bool;
  validatePosition : string -> bool;
  validateRating : string -> bool;
  capitalizeName : string -> string
}.

(** The handlers that read the imported helpers, and the event loop. *)
Section Controller.
Context `{Imports}.

(** [newErrors] as [validatePlayer] builds it. *)
Definition newErrors (player : Draft) : gmap string string :=
  let e0 : gmap string string := ∅ in
  let e1 :=
    if validateName (d_name player) then e0
    else <["name" :=
           "Invalid name. Please enter a non-empty name up to 100 characters."]> e0 in
  let e2 :=
    if validatePosition (d_position player) then e1
    else <["position" :=
           "Invalid position. Please select a valid position."]> e1 in
  let e3 :=
    if validateRating (d_rating player) then e2
    else <["rating" :=
           "Invalid rating. Please enter a number between 0 and 99."]> e2 in
  e3.

(** [validatePlayer]: publishes the error mapping and tells whether it is
    empty. *)
Definition validatePlayer (player : Draft) (st : State) : bool * State :=
  (bool_decide (size (newErrors player) = 0%nat),
   setErrors (newErrors player) st).

(** [{ ...newPlayer, id: i, name: capitalizeName(newPlayer.name) }] *)
Definition recordOfDraft (i : Z) (d : Draft) : Player :=
  mkPlayer i (capitalizeName (d_name d)) (d_position d) (d_year d) (d_rating d).

(** [addPlayer], with [now] the value of [Date.now()]. [setPlayers] does
    not throw in this model, so the [catch] branch is never entered. *)
Definition addPlayer (now : Z) (st : State) : State :=
  let '(ok, st1) := validatePlayer (newPlayer st) st in
  if ok then
    let st2 := setPlayers (players st ++ [recordOfDraft now (newPlayer st)]) st1 in
    let st3 := setNewPlayer emptyDraft st2 in
    toast (toast_success "Player added successfully!") st3
  else
    toast (toast_error "Please correct the errors before adding the player.") st1.

(** [saveEdit] *)
Definition saveEdit (st : State) : State :=
  let st1 :=
    setPlayers
      ((λ player,
          if decide (Some (id player) = editingId st)
          then recordOfDraft (id player) (newPlayer st)
          else player) <$> players st)
      st in
  let st2 := setEditingId None st1 in
  setNewPlayer emptyDraft st2.

(** What the user can do to the component. Which buttons are shown
    depends on [editingId], but no handler checks it: every event is
    accepted in every state. *)
Inductive Event :=
| EvChange (f : SortField) (value : string)
| EvRequestSort (f : SortField)
| EvAdd (now : Z)
| EvStartEdit (player : Player)
| EvSaveEdit
| EvCancelEdit
| EvRemove (i : Z).

Definition handle (ev : Event) (st : State) : State :=
  match ev with
  | EvChange f value => changeField f value st
  | EvRequestSort f => requestSort f st
  | EvAdd now => addPlayer now st
  | EvStartEdit player => startEditing player st
  | EvSaveEdit => saveEdit st
  | EvCancelEdit => cancelEdit st
  | EvRemove i => removePlayer i st
  end.

(** One event: the handler, the render, then the effect. *)
Definition step (ev : Event) (st : State) : State :=
  playersEffect st (handle ev st).

Definition run (evs : list Event) (st : State) : State :=
  foldl (λ s ev, step ev s) st evs.

(** A record that passes the three validators. *)
Definition validRecord (p : Player) : bool :=
  validateName (name p) && validatePosition (position p)
  && validateRating (rating p).

Definition validDraft (d : Draft) : bool :=
  validateName (d_name d) && validatePosition (d_position d)
  && validateRating (d_rating d).

(** The names of the fields of [d] that a validator rejects. *)
Definition failingFields (d : Draft) : gset string :=
  (if validateName (d_name d) then ∅ else {["name"]})
  ∪ (if validatePosition (d_position d) then ∅ else {["position"]})
  ∪ (if validateRating (d_rating d) then ∅ else {["rating"]}).

End Controller.

(** ** The imported helpers, as the specification describes them *)

Module SpecModel.

(** [String.prototype.trim] on the code units of this model. *)
Definition trim (s : string) : string :=
  String.rev (trimStart (String.rev (trimStart s))).

(** Modelled from the spec: [validateName] ('@/utils/validationUtils') is
    missing from the sources; it "fails when the trimmed value is empty or
    exceeds 100 characters". *)
Definition validateName (raw : string) : bool :=
  let t := trim raw in
  negb (String.eqb t "") && (Nat.leb (String.length t) 100).

(** Modelled from the spec: [validatePosition] ('@/utils/validationUtils')
    is missing from the sources; it "fails unless the value exactly
    matches one member of the fixed position-code set". *)
Definition validatePosition (raw : string) : bool :=
  bool_decide (raw ∈ positions).

(** Modelled from the spec: [validateRating] ('@/utils/validationUtils') is
    missing from the sources; it "fails unless the value parses as an
    integer and the parsed value lies in the closed range [0, 99]". *)
Definition validateRating (raw : string) : bool :=
  match parseInt raw with
  | Num v => (0 <=? v) && (v <=? 99)
  | NaN => false
  end.

Definition toUpper (c : ascii) : ascii :=
  let n := N_of_ascii c in
  if ((97 <=? n) && (n <=? 122))%N then ascii_of_N (n - 32) else c.

Fixpoint capitalizeWords (atStart : bool) (s : string) : string :=
  match s with
  | String c s' =>
      String (if atStart then toUpper c else c)
             (capitalizeWords (Ascii.eqb c " ") s')
  | EmptyString => EmptyString
  end.

(** Modelled from the spec: [capitalizeName] ('@/utils') is missing from
    the sources; the name's "display form is capitalized-per-word": the
    first letter of every space-separated word is put in upper case. *)
Definition capitalizeName (raw : string) : string := capitalizeWords true raw.

(** The helpers of the specification, bundled, and the component run with
    them. *)
Definition imports : Imports :=
  Build_Imports validateName validatePosition validateRating capitalizeName.

Definition addPlayer := @addPlayer imports.
Definition saveEdit := @saveEdit imports.
Definition step := @step imports.
Definition run := @run imports.
Definition validRecord := @validRecord imports.

(** Typing a whole form. *)
Definition fillForm (n p y r : string) : list Event :=
  [EvChange F_name n; EvChange F_position p; EvChange F_year y;
   EvChange F_rating r].

Definition bob : Player := mkPlayer 1000 "Bob" "QB" "FR" "80".
Definition al : Player := mkPlayer 1001 "Al" "RB" "SO" "70".

(** Bob is entered and added when the clock reads 1000. *)
Definition addBob : list Event :=
  fillForm "Bob" "QB" "FR" "80" ++ [EvAdd 1000].

(** Al is entered and added when the clock reads [now]. *)
Definition addAl (now : Z) : list Event :=
  fillForm "Al" "RB" "SO" "70" ++ [EvAdd now].

(** Bob is added, opened for editing, and his rating is overtyped with
    "abc": the controller is in Editing with a draft that does not
    validate. *)
Definition editBobBadRating : list Event :=
  addBob ++ [EvStartEdit bob; EvChange F_rating "abc"].

(** Bob and Al are added, Bob is opened for editing and removed while the
    edit session is open. *)
Definition removeBobWhileEditing : list Event :=
  addBob ++ addAl 1001 ++ [EvStartEdit bob; EvChange F_rating "75"; EvRemove 1000].

End SpecModel.

(** The rank the table gives a year label ([0] stands in for a label the
    table does not have). *)
Definition yearRank (y : string) : Z := default 0 (yearOrder !! y).

(** The integer [parseInt] reads in a rating ([0] stands in for [NaN]). *)
Definition ratingValue (p : Player) : Z :=
  match parseInt (rating p) with Num v => v | NaN => 0 end.


(** Ascending order of a key. *)
Definition byKey {A : Type} (key : A -> Z) : relation A :=
  λ a b, key a ≤ key b.

(** A roster with one player of every year label, in no particular order. *)
Definition oneOfEachYear : list Player :=
  [ mkPlayer 1 "Ann" "QB" "SO" "80";
    mkPlayer 2 "Ben" "RB" "SR (RS)" "71";
    mkPlayer 3 "Cal" "WR" "FR (RS)" "64";
    mkPlayer 4 "Dan" "TE" "JR" "90";
    mkPlayer 5 "Eli" "OL" "FR" "55";
    mkPlayer 6 "Flo" "DL" "SR" "77";
    mkPlayer 7 "Gus" "LB" "SO (RS)" "68";
    mkPlayer 8 "Hal" "CB" "JR (RS)" "83" ].

(** The order a sort configuration asks for: the rank of the year, the
    integer in the rating, or the spelling of the name or position, upwards
    or downwards. *)
Definition viewOrder (cfg : SortConfig) : relation Player := λ a b,
  match field cfg, direction cfg with
  | F_year, asc => yearRank (year a) ≤ yearRank (year b)
  | F_year, desc => yearRank (year b) ≤ yearRank (year a)
  | F_rating, asc => ratingValue a ≤ ratingValue b
  | F_rating, desc => ratingValue b ≤ ratingValue a
  | f, asc => String.le (getField f a) (getField f b)
  | f, desc => String.le (getField f b) (getField f a)
  end.

(** The records on which the comparator of a field never yields [NaN]: a
    year of the table, a rating that [parseInt] reads; names and positions
    always compare. *)
Definition sortable (f : SortField) (p : Player) : Prop :=
  match f with
  | F_year => year p ∈ years
  | F_rating => parseInt (rating p) ≠ NaN
  | _ => True
  end.

(** [{ ...p, [f]: value }] for one of the four text fields of a player. *)
Definition setPlayerField (f : SortField) (value : string) (p : Player) : Player :=
  match f with
  | F_name => mkPlayer (id p) value (position p) (year p) (rating p)
  | F_position => mkPlayer (id p) (name p) value (year p) (rating p)
  | F_year => mkPlayer (id p) (name p) (position p) value (rating p)
  | F_rating => mkPlayer (id p) (name p) (position p) (year p) value
  end.

Section Update.
Context `{Imports}.

(** [updatePlayer(index, field, value)], for an [index] that is a position
    of the array and a [field] among the four text fields. The result is
    [None] where the call leaves what this model represents: at an index
    past the end JavaScript grows the array by an object that has the one
    field only, and with the field ['id'] the id becomes a string. *)
Definition updatePlayer (index : nat) (f : SortField) (value : string)
    (st : State) : option State :=
  match players st !! index with
  | Some p =>
      let updatedPlayers := <[index := setPlayerField f value p]> (players st) in
      let '(ok, st1) :=
        validatePlayer (draftOfPlayer (setPlayerField f value p)) st in
      Some (if ok
            then toast (toast_success "Player updated successfully!")
                       (setPlayers updatedPlayers st1)
            else toast (toast_error
                          "Please correct the errors before updating the player.")
                       st1)
  | None => None
  end.

(** The record that [addPlayer] and [saveEdit] build from the form passes
    the validators. *)
Definition storable (d : Draft) : bool :=
  validRecord (recordOfDraft 0 d).

(** An event that cannot bring an invalid record into the collection: a
    [saveEdit] whose form content is storable, an [add] for which
    capitalizing the name does not break a draft that validates. *)
Definition gatedEvent (ev : Event) (st : State) : Prop :=
  match ev with
  | EvAdd _ => validDraft (newPlayer st) = true → storable (newPlayer st) = true
  | EvSaveEdit => storable (newPlayer st) = true
  | _ => True
  end.

Fixpoint gatedRun (evs : list Event) (st : State) : Prop :=
  match evs with
  | [] => True
  | ev :: evs' => gatedEvent ev st ∧ gatedRun evs' (step ev st)
  end.
End Update.

(** ** The coach profile ([CoachProfile.tsx]) *)

Module CoachProfile.

(** The four [useState] values of the component. *)
Record Profile := mkProfile {
  coachName : string;
  schoolName : string;
  isEditing : bool;
  isLoaded : bool
}.

(** [localStorage]: string keys, string values; [getItem] of an absent key
    is [null]. *)
Definition Storage := gmap string string.

(** The component together with the storage it reads and writes. *)
Record World := mkWorld { profile : Profile; storage : gmap string string }.

(** The first render: [useState('')] twice, [useState(false)] twice. *)
Definition initialProfile : Profile := mkProfile "" "" false false.

(** [item || '']: [null] and the empty string are the falsy values. *)
Definition orEmpty (item : option string) : string :=
  match item with
  | Some v => if String.eqb v "" then "" else v
  | None => ""
  end.

(** The effect with no dependencies, run once after the first render. *)
Definition mountEffect (w : World) : World :=
  mkWorld
    (mkProfile (orEmpty (storage w !! "coachName"))
               (orEmpty (storage w !! "schoolName"))
               (isEditing (profile w))
               true)
    (storage w).

(** [handleSave] *)
Definition handleSave (w : World) : World :=
  let s1 := <["coachName" := coachName (profile w)]> (storage w) in
  let s2 := <["schoolName" := schoolName (profile w)]> s1 in
  mkWorld
    (mkProfile (coachName (profile w)) (schoolName (profile w)) false
               (isLoaded (profile w)))
    s2.

(** What the user can do in the pop-over. *)
Inductive Event :=
| SetCoachName (value : string)
| SetSchoolName (value : string)
| OpenChange (open : bool)
| Save.

Definition handle (ev : Event) (w : World) : World :=
  match ev with
  | SetCoachName v =>
      mkWorld (mkProfile v (schoolName (profile w)) (isEditing (profile w))
                         (isLoaded (profile w)))
              (storage w)
  | SetSchoolName v =>
      mkWorld (mkProfile (coachName (profile w)) v (isEditing (profile w))
                         (isLoaded (profile w)))
              (storage w)
  | OpenChange b =>
      mkWorld (mkProfile (coachName (profile w)) (schoolName (profile w)) b
                         (isLoaded (profile w)))
              (storage w)
  | Save => handleSave w
  end.

Definition run (evs : list Event) (w : World) : World :=
  foldl (λ s ev, handle ev s) w evs.

(** Loading the page anew on the storage as it is. *)
Definition reload (w : World) : World :=
  mountEffect (mkWorld initialProfile (storage w)).

(** What the trigger button shows: nothing before the mount effect has
    run, then the two names if both are non-empty, else the invitation
    "Set Coach & School". *)
Inductive Label := Names (coach school : string) | Invitation.

Definition buttonLabel (p : Profile) : option Label :=
  if negb (isLoaded p) then None
  else if negb (String.eqb (coachName p) "") && negb (String.eqb (schoolName p) "")
       then Some (Names (coachName p) (schoolName p))
       else Some Invitation.

Definition isSave (ev : Event) : bool :=
  match ev with Save => true | _ => false end.

End CoachProfile.

(** * Properties *)

(** ** The sort *)

Section SortFacts.
Context {A : Type}.
Variable comparefn : A -> A -> number.
Variable key : A -> Z.

Lemma sort_insert_Permutation x l : sort_insert comparefn x l ≡ₚ x :: l.
Proof.
  induction l as [|y l IH]; simpl; [done|].
  destruct (SortCompare comparefn x y <=? 0); [done|].
  rewrite IH. apply Permutation_swap.
Qed.

Lemma js_sort_Permutation l : js_sort comparefn l ≡ₚ l.
Proof.
  induction l as [|x l IH]; simpl; [done|].
  by rewrite sort_insert_Permutation, IH.
Qed.

Lemma sort_insert_HdRel x y s :
  byKey key y x → HdRel (byKey key) y s →
  HdRel (byKey key) y (sort_insert comparefn x s).
Proof.
  intros Hyx Hs. destruct s as [|z s]; simpl.
  - by constructor.
  - destruct (SortCompare comparefn x z <=? 0); constructor; [done|].
    by inversion Hs.
Qed.

Lemma sort_insert_Sorted x s :
  (∀ y, y ∈ s → (SortCompare comparefn x y <=? 0) = (key x <=? key y)) →
  Sorted (byKey key) s → Sorted (byKey key) (sort_insert comparefn x s).
Proof.
  induction s as [|y s IH]; simpl; intros Hag Hs.
  - by repeat constructor.
  - rewrite Hag by left.
    destruct (Z.leb_spec (key x) (key y)) as [Hle|Hlt].
    + constructor; [done|]. by constructor.
    + inversion Hs as [|? ? Hs' Hhd]; subst. constructor.
      * apply IH; [|done]. intros z Hz. apply Hag. by right.
      * apply sort_insert_HdRel; [|done]. unfold byKey. lia.
Qed.

(** Where the comparator orders the elements of [l] as [key] does, the
    sort returns them in ascending order of [key]. *)
Lemma js_sort_Sorted l :
  (∀ a b, a ∈ l → b ∈ l →
          (SortCompare comparefn a b <=? 0) = (key a <=? key b)) →
  Sorted (byKey key) (js_sort comparefn l).
Proof.
  induction l as [|x l IH]; simpl; intros Hag.
  - constructor.
  - apply sort_insert_Sorted.
    + intros y Hy. apply Hag; [left|right].
      by rewrite <- (js_sort_Permutation l).
    + apply IH. intros a b Ha Hb. apply Hag; by right.
Qed.
End SortFacts.

(** The sort is stable: records with the same key keep the order they
    had. *)
Lemma sort_insert_same_key {A} (comparefn : A → A → number) (key : A → Z)
    (k : Z) (x : A) (s : list A) :
  (∀ y, y ∈ s → (SortCompare comparefn x y <=? 0) = (key x <=? key y)) →
  filter (λ a, key a = k) (sort_insert comparefn x s)
  = filter (λ a, key a = k) (x :: s).
Proof.
  induction s as [|y s IH]; simpl; intros Hag; [done|].
  rewrite Hag by left.
  destruct (Z.leb_spec (key x) (key y)) as [Hle|Hlt]; [done|].
  rewrite filter_cons, IH by (intros z Hz; apply Hag; by right).
  rewrite !filter_cons.
  destruct (decide (key y = k)), (decide (key x = k)); try done; lia.
Qed.

Lemma js_sort_stable {A} (comparefn : A → A → number) (key : A → Z)
    (k : Z) (l : list A) :
  (∀ a b, a ∈ l → b ∈ l →
          (SortCompare comparefn a b <=? 0) = (key a <=? key b)) →
  filter (λ a, key a = k) (js_sort comparefn l) = filter (λ a, key a = k) l.
Proof.
  induction l as [|x l IH]; simpl; intros Hag; [done|].
  rewrite sort_insert_same_key.
  - rewrite !filter_cons, IH; [done|].
    intros a b Ha Hb. apply Hag; by right.
  - intros y Hy. apply Hag; [left|right].
    by rewrite <- (js_sort_Permutation comparefn l).
Qed.

(** ** The year ordering *)

Lemma yearOrder_lookup y : y ∈ years → yearOrder !! y = Some (yearRank y).
Proof.
  unfold years. rewrite !elem_of_cons, elem_of_nil.
  intros H; repeat (destruct H as [->|H]; [by vm_compute|]); done.
Qed.

Lemma yearRank_index i y : years !! i = Some y → yearRank y = Z.of_nat i.
Proof.
  unfold years. intros H.
  do 8 (destruct i as [|i]; [injection H as <-; by vm_compute|]).
  done.
Qed.

Lemma yearRank_inj y1 y2 :
  y1 ∈ years → y2 ∈ years → yearRank y1 = yearRank y2 → y1 = y2.
Proof.
  unfold years. rewrite !elem_of_cons, !elem_of_nil.
  intros H1 H2.
  repeat (destruct H1 as [->|H1]); try done;
    repeat (destruct H2 as [->|H2]); try done; by vm_compute.
Qed.

Lemma compare_year_asc a b :
  year a ∈ years → year b ∈ years →
  comparePlayers (mkSort F_year asc) a b
  = Num (yearRank (year a) - yearRank (year b)).
Proof.
  intros Ha Hb. unfold comparePlayers; simpl.
  by rewrite (yearOrder_lookup _ Ha), (yearOrder_lookup _ Hb).
Qed.

Lemma yearRank_fmap_inj (l1 l2 : list string) :
  Forall (λ y, y ∈ years) l1 → Forall (λ y, y ∈ years) l2 →
  yearRank <$> l1 = yearRank <$> l2 → l1 = l2.
Proof.
  intros H1. revert l2.
  induction H1 as [|y1 l1 Hy1 _ IH]; intros l2 H2 Heq;
    destruct H2 as [|y2 l2 Hy2 H2]; simplify_eq/=; [done|].
  f_equal; [by apply yearRank_inj | by apply IH].
Qed.

(** C4. Sorting ascending by year follows the rank table
    FR < FR (RS) < SO < SO (RS) < JR < JR (RS) < SR < SR (RS): for records
    that carry these labels the sorted view is a rearrangement of the
    collection in ascending rank, one record of each label comes out in
    exactly the table's sequence, and the comparator tells two records
    apart by rank alone (negative exactly when the first rank is smaller,
    zero exactly when the labels are the same), never by the spelling of
    the label. *)
Theorem year_sort_follows_rank_table (l : list Player) :
  Forall (λ p, year p ∈ years) l →
  let cmp := comparePlayers (mkSort F_year asc) in
  let s := sortedPlayers (mkSort F_year asc) l in
  (∀ i y, years !! i = Some y → yearRank y = Z.of_nat i)
  ∧ s ≡ₚ l
  ∧ Sorted (byKey (λ p, yearRank (year p))) s
  ∧ (year <$> l ≡ₚ years → year <$> s = years)
  ∧ (∀ a b, a ∈ l → b ∈ l →
       (SortCompare cmp a b < 0 ↔ yearRank (year a) < yearRank (year b))
       ∧ (SortCompare cmp a b = 0 ↔ year a = year b)).
Proof.
  intros Hl cmp s.
  assert (Hcmp : ∀ a b, a ∈ l → b ∈ l →
            SortCompare cmp a b = yearRank (year a) - yearRank (year b)).
  { intros a b Ha Hb. rewrite Forall_forall in Hl.
    unfold SortCompare, cmp. by rewrite compare_year_asc by auto. }
  assert (Hperm : s ≡ₚ l) by apply js_sort_Permutation.
  assert (Hsorted : Sorted (byKey (λ p, yearRank (year p))) s).
  { apply js_sort_Sorted. intros a b Ha Hb.
    fold cmp. rewrite Hcmp by done.
    destruct (Z.leb_spec (yearRank (year a) - yearRank (year b)) 0),
             (Z.leb_spec (yearRank (year a)) (yearRank (year b))); lia. }
  split_and!; [apply yearRank_index | done | done | |].
  - intros Hall.
    apply yearRank_fmap_inj.
    + apply Forall_fmap. rewrite Hperm. by apply (Forall_impl _ _ _ Hl).
    + by apply Forall_forall.
    + apply (Sorted_unique Z.le).
      * rewrite <- list_fmap_compose.
        by apply (Sorted_fmap _ (byKey (λ p, yearRank (year p)))).
      * vm_compute. repeat constructor; by vm_compute.
      * by rewrite Hperm, Hall.
  - intros a b Ha Hb. rewrite Hcmp by done.
    rewrite Forall_forall in Hl. split; [lia|]. split.
    + intros H. apply yearRank_inj; auto. lia.
    + intros ->. lia.
Qed.

Lemma year_sort_follows_rank_table_witness :
  Forall (λ p, year p ∈ years) oneOfEachYear
  ∧ year <$> sortedPlayers (mkSort F_year asc) oneOfEachYear = years.
Proof.
  assert (H : Forall (λ p, year p ∈ years) oneOfEachYear).
  { apply (bool_decide_unpack _). vm_compute. reflexivity. }
  split; [exact H|].
  destruct (year_sort_follows_rank_table oneOfEachYear H) as (_ & _ & _ & Hseq & _).
  apply Hseq. apply (bool_decide_unpack _). vm_compute. reflexivity.
Defined.

(** "SO" against "JR": the spelling would put "JR" first, the table puts
    "SO" first, and so does the sorted view. *)
Example year_sort_not_lexical :
  String.ltb "JR" "SO" = true
  ∧ year <$> sortedPlayers (mkSort F_year asc)
               [mkPlayer 1 "Ann" "QB" "JR" "80"; mkPlayer 2 "Ben" "RB" "SO" "71"]
    = ["SO"; "JR"].
Proof. split; reflexivity. Qed.

(** ** The rating ordering *)

Lemma compare_rating_parsed d a b :
  parseInt (rating a) ≠ NaN → parseInt (rating b) ≠ NaN →
  SortCompare (comparePlayers (mkSort F_rating d)) a b
  = match d with
    | asc => ratingValue a - ratingValue b
    | desc => ratingValue b - ratingValue a
    end.
Proof.
  unfold SortCompare, comparePlayers, ratingValue; simpl.
  destruct (parseInt (rating a)), (parseInt (rating b)), d; simpl; done.
Qed.




(** ** The lifecycle controller *)

Section ControllerFacts.
Context `{Imports}.

Lemma newErrors_size d : size (newErrors d) = 0%nat ↔ validDraft d = true.
Proof.
  unfold newErrors, validDraft.
  destruct (validateName _), (validatePosition _), (validateRating _);
    vm_compute; split; done.
Qed.

Lemma newErrors_dom d : dom (newErrors d) = failingFields d.
Proof.
  unfold newErrors, failingFields.
  destruct (validateName _), (validatePosition _), (validateRating _);
    by vm_compute.
Qed.

End ControllerFacts.

(** *** What the effect and the form events leave alone *)

Lemma playersEffect_frame prev next :
  let st := playersEffect prev next in
  players st = players next ∧ players_ref st = players_ref next
  ∧ newPlayer st = newPlayer next ∧ editingId st = editingId next
  ∧ errors st = errors next ∧ toasts st = toasts next.
Proof. unfold playersEffect. by destruct (decide _). Qed.

Lemma playersEffect_same_ref prev next :
  players_ref next = players_ref prev → playersEffect prev next = next.
Proof. unfold playersEffect. intros ?. by rewrite decide_True. Qed.

Lemma playersEffect_new_ref prev next :
  players_ref next ≠ players_ref prev →
  sortConfig (playersEffect prev next) = defaultSort.
Proof. unfold playersEffect. intros ?. by rewrite decide_False. Qed.

Section LifecycleFacts.
Context `{Imports}.

Lemma run_cons ev evs st : run (ev :: evs) st = run evs (step ev st).
Proof. done. Qed.

Lemma run_app evs1 evs2 st : run (evs1 ++ evs2) st = run evs2 (run evs1 st).
Proof. apply foldl_app. Qed.

Lemma step_change f v st : step (EvChange f v) st = changeField f v st.
Proof. by apply playersEffect_same_ref. Qed.

Lemma run_changes edits st :
  let st' := run (uncurry EvChange <$> edits) st in
  players st' = players st ∧ players_ref st' = players_ref st
  ∧ editingId st' = editingId st ∧ sortConfig st' = sortConfig st
  ∧ errors st' = errors st ∧ toasts st' = toasts st.
Proof.
  revert st. induction edits as [|[f v] edits IH]; intros st; [done|].
  cbv zeta in *.
  rewrite fmap_cons, run_cons. simpl uncurry. rewrite step_change.
  destruct (IH (changeField f v st)) as (-> & -> & -> & -> & -> & ->).
  done.
Qed.

(** C9. [remove(id)] replaces the collection by exactly the records whose
    id differs from the given one, whatever the state of the controller: a
    record stays if and only if its id is another one, in the order it
    had and unmodified; when no record has the id, the collection is the
    same as before; the edit session, the form and the error mapping are
    not touched and nothing is notified. *)
Theorem remove_keeps_exactly_other_ids (i : Z) (st : State) :
  let st' := step (EvRemove i) st in
  players st' = filter (λ p, id p ≠ i) (players st)
  ∧ (∀ p, p ∈ players st' ↔ p ∈ players st ∧ id p ≠ i)
  ∧ players st' `sublist_of` players st
  ∧ ((∀ p, p ∈ players st → id p ≠ i) → players st' = players st)
  ∧ editingId st' = editingId st
  ∧ newPlayer st' = newPlayer st
  ∧ errors st' = errors st
  ∧ toasts st' = toasts st.
Proof.
  intros st'. subst st'. unfold step.
  destruct (playersEffect_frame st (handle (EvRemove i) st))
    as (-> & _ & -> & -> & -> & ->).
  simpl. split_and!; try done.
  - intros p. rewrite list_elem_of_filter. tauto.
  - apply sublist_filter.
  - intros Hno. induction (players st) as [|p l IH]; [done|].
    rewrite filter_cons_True by (apply Hno; left).
    f_equal. apply IH. intros q Hq. apply Hno. by right.
Qed.

(** C10. When [saveEdit] runs while no record of the collection has the
    id under edit, every record is mapped to itself, so the collection is
    left as it was, and the controller still returns to Idle: the id under
    edit and the form are cleared. *)
Theorem save_edit_without_target (st : State) :
  (∀ p, p ∈ players st → Some (id p) ≠ editingId st) →
  let st' := step EvSaveEdit st in
  players st' = players st
  ∧ editingId st' = None
  ∧ newPlayer st' = emptyDraft.
Proof.
  intros Hno st'. subst st'. unfold step.
  destruct (playersEffect_frame st (handle EvSaveEdit st))
    as (-> & _ & -> & -> & _). simpl.
  split_and!; try done.
  induction (players st) as [|p l IH]; [done|].
  rewrite fmap_cons. rewrite decide_False by (apply Hno; left).
  f_equal. apply IH. intros q Hq. apply Hno. by right.
Qed.

(** C8. [startEdit(r)], any typing into the form, then [cancelEdit()]:
    the collection is the one from before [startEdit] (the same array,
    even), and the controller is Idle with an empty form. [cancelEdit]
    clears the id under edit and the form from every state; it runs no
    validation (it does not read the validators, and the error mapping
    stays as it was). *)
Theorem start_edit_then_cancel_restores
    (r : Player) (edits : list (SortField * string)) (st : State) :
  let st' :=
    run ([EvStartEdit r] ++ (uncurry EvChange <$> edits) ++ [EvCancelEdit]) st in
  players st' = players st
  ∧ players_ref st' = players_ref st
  ∧ editingId st' = None
  ∧ newPlayer st' = emptyDraft
  ∧ errors st' = errors st
  ∧ toasts st' = toasts st
  ∧ sortConfig st' = sortConfig st
  ∧ step EvCancelEdit st = cancelEdit st
  ∧ editingId (cancelEdit st) = None
  ∧ newPlayer (cancelEdit st) = emptyDraft
  ∧ players (cancelEdit st) = players st
  ∧ errors (cancelEdit st) = errors st.
Proof.
  intros st'. subst st'. rewrite !run_app.
  set (st1 := run [EvStartEdit r] st).
  assert (H1 : st1 = startEditing r st) by (by apply playersEffect_same_ref).
  destruct (run_changes edits st1) as (Hp & Hr & He & Hs & Her & Ht).
  set (st2 := run (uncurry EvChange <$> edits) st1) in *.
  assert (H3 : run [EvCancelEdit] st2 = cancelEdit st2)
    by (by apply playersEffect_same_ref).
  rewrite H3. simpl. rewrite Hp, Hr, Hs, Her, Ht, H1. simpl.
  split_and!; try done.
  by apply playersEffect_same_ref.
Qed.
(** *** Which handlers replace the collection *)

Lemma addPlayer_players now st :
  players (addPlayer now st)
  = if validDraft (newPlayer st)
    then players st ++ [recordOfDraft now (newPlayer st)]
    else players st.
Proof.
  unfold addPlayer, validatePlayer.
  pose proof (newErrors_size (newPlayer st)) as Hsize.
  destruct (validDraft (newPlayer st)).
  - by rewrite bool_decide_eq_true_2 by (by apply Hsize).
  - rewrite bool_decide_eq_false_2; [done|].
    intros Hs. apply Hsize in Hs. congruence.
Qed.

Lemma addPlayer_players_ref now st :
  players_ref (addPlayer now st)
  = if validDraft (newPlayer st) then S (players_ref st) else players_ref st.
Proof.
  unfold addPlayer, validatePlayer.
  pose proof (newErrors_size (newPlayer st)) as Hsize.
  destruct (validDraft (newPlayer st)).
  - by rewrite bool_decide_eq_true_2 by (by apply Hsize).
  - rewrite bool_decide_eq_false_2; [done|].
    intros Hs. apply Hsize in Hs. congruence.
Qed.

Lemma addPlayer_sortConfig now st :
  sortConfig (addPlayer now st) = sortConfig st.
Proof. unfold addPlayer, validatePlayer. by destruct (bool_decide _). Qed.

(** A handler either leaves the array in place, or stores a new one. *)
Lemma handle_players_ref ev st :
  (players_ref (handle ev st) = players_ref st
   ∧ players (handle ev st) = players st)
  ∨ players_ref (handle ev st) = S (players_ref st).
Proof.
  destruct ev; simpl; auto.
  rewrite addPlayer_players, addPlayer_players_ref.
  destruct (validDraft _); auto.
Qed.

Lemma step_players ev st : players (step ev st) = players (handle ev st).
Proof. apply playersEffect_frame. Qed.

(** C7. Every operation that replaces the stored collection leaves the
    sort configuration at its default, field [rating] in descending
    direction, whatever the user had selected: [remove] and [saveEdit]
    always (they store a new array even when no record changes), [add]
    when the candidate is valid (when it is not, nothing is stored and the
    selection stays), and in general every event after which the collection
    differs, or whose handler stores an array. *)
Theorem collection_change_resets_sort (st : State) :
  (∀ i, sortConfig (step (EvRemove i) st) = defaultSort)
  ∧ sortConfig (step EvSaveEdit st) = defaultSort
  ∧ (∀ now, sortConfig (step (EvAdd now) st)
            = if validDraft (newPlayer st) then defaultSort else sortConfig st)
  ∧ (∀ ev, players (step ev st) ≠ players st →
           sortConfig (step ev st) = defaultSort)
  ∧ (∀ ev, players_ref (handle ev st) ≠ players_ref st →
           sortConfig (step ev st) = defaultSort).
Proof.
  split_and!.
  - intros i. apply playersEffect_new_ref. simpl. lia.
  - apply playersEffect_new_ref. simpl. lia.
  - intros now. unfold step. simpl handle.
    pose proof (addPlayer_players_ref now st) as Href.
    destruct (validDraft (newPlayer st)).
    + apply playersEffect_new_ref. lia.
    + rewrite playersEffect_same_ref by done. apply addPlayer_sortConfig.
  - intros ev Hne. rewrite step_players in Hne.
    apply playersEffect_new_ref.
    destruct (handle_players_ref ev st) as [[_ Hsame]|Hnew]; [done|lia].
  - intros ev Hne. by apply playersEffect_new_ref.
Qed.

(** *** Ids *)

Lemma saveEdit_ids st : id <$> players (saveEdit st) = id <$> players st.
Proof.
  simpl. rewrite <- list_fmap_compose. apply list_fmap_ext.
  intros _ p _. simpl. by destruct (decide _).
Qed.


End LifecycleFacts.

(** ** The controller at work, with the helpers of the specification *)

Lemma remove_keeps_exactly_other_ids_witness :
  let st := SpecModel.run (SpecModel.addBob ++ SpecModel.addAl 1001) (initialState []) in
  (∀ p, p ∈ players st → id p ≠ 7)
  ∧ players (SpecModel.step (EvRemove 7) st) = players st
  ∧ players (SpecModel.step (EvRemove 1000) st) = [SpecModel.al].
Proof.
  intros st.
  assert (Hno : ∀ p, p ∈ players st → id p ≠ 7).
  { apply Forall_forall. apply (bool_decide_unpack _). vm_compute. reflexivity. }
  destruct (remove_keeps_exactly_other_ids (H := SpecModel.imports) 7 st)
    as (_ & _ & _ & Hnoop & _).
  destruct (remove_keeps_exactly_other_ids (H := SpecModel.imports) 1000 st)
    as (Hfilter & _).
  split_and!; [exact Hno | exact (Hnoop Hno) | ].
  etransitivity; [exact Hfilter|]. vm_compute. reflexivity.
Defined.

Lemma save_edit_without_target_witness :
  let st := SpecModel.run SpecModel.removeBobWhileEditing (initialState []) in
  (∀ p, p ∈ players st → Some (id p) ≠ editingId st)
  ∧ editingId st = Some 1000
  ∧ players (SpecModel.step EvSaveEdit st) = [SpecModel.al]
  ∧ editingId (SpecModel.step EvSaveEdit st) = None
  ∧ newPlayer (SpecModel.step EvSaveEdit st) = emptyDraft.
Proof.
  intros st.
  assert (Hno : ∀ p, p ∈ players st → Some (id p) ≠ editingId st).
  { apply Forall_forall. apply (bool_decide_unpack _). vm_compute. reflexivity. }
  destruct (save_edit_without_target (H := SpecModel.imports) st Hno)
    as (Hp & He & Hd).
  split_and!; [exact Hno | reflexivity | | exact He | exact Hd].
  etransitivity; [exact Hp|]. vm_compute. reflexivity.
Defined.

Lemma collection_change_resets_sort_witness :
  let st := SpecModel.run (SpecModel.addBob ++ [EvRequestSort F_name])
                          (initialState []) in
  sortConfig st = mkSort F_name asc
  ∧ players (SpecModel.step (EvRemove 1000) st) ≠ players st
  ∧ sortConfig (SpecModel.step (EvRemove 1000) st) = defaultSort.
Proof.
  intros st.
  assert (Hne : players (SpecModel.step (EvRemove 1000) st) ≠ players st).
  { apply (bool_decide_unpack _). vm_compute. reflexivity. }
  destruct (collection_change_resets_sort (H := SpecModel.imports) st)
    as (_ & _ & _ & Hchg & _).
  split_and!; [reflexivity | exact Hne | exact (Hchg (EvRemove 1000) Hne)].
Defined.



(** C1, on the running code: [saveEdit] with a draft that does not
    validate. Whatever the validators are, [saveEdit] writes the draft over
    the record under edit, leaves Editing, and leaves the error mapping and
    the notifications as they were. With the controller in Editing on Bob
    and the rating "abc" in the form, the collection ends up holding that
    rating. *)
Theorem save_edit_skips_validation :
  (∀ (H : Imports) (st : State),
     let st' := step EvSaveEdit st in
     players st'
     = (λ player, if decide (Some (id player) = editingId st)
                  then recordOfDraft (id player) (newPlayer st)
                  else player) <$> players st
     ∧ editingId st' = None
     ∧ newPlayer st' = emptyDraft
     ∧ errors st' = errors st
     ∧ toasts st' = toasts st)
  ∧ (let st := SpecModel.run SpecModel.editBobBadRating (initialState []) in
     let st' := SpecModel.step EvSaveEdit st in
     players st = [SpecModel.bob]
     ∧ editingId st = Some 1000
     ∧ d_rating (newPlayer st) = "abc"
     ∧ validDraft (H := SpecModel.imports) (newPlayer st) = false
     ∧ players st' = [mkPlayer 1000 "Bob" "QB" "FR" "abc"]
     ∧ editingId st' = None
     ∧ newPlayer st' = emptyDraft
     ∧ errors st' = ∅).
Proof.
  split.
  - intros H st st'. subst st'. unfold step.
    destruct (playersEffect_frame st (handle EvSaveEdit st))
      as (-> & _ & -> & -> & -> & ->).
    done.
  - vm_compute. split_and!; reflexivity.
Qed.

(** C2, on the running code: from the empty collection, adding Bob,
    opening him for editing, typing the rating "abc" and saving leads to a
    collection that holds a record the rating validator rejects. *)
Theorem invalid_record_reachable :
  let st := SpecModel.run (SpecModel.editBobBadRating ++ [EvSaveEdit])
                          (initialState []) in
  players st = [mkPlayer 1000 "Bob" "QB" "FR" "abc"]
  ∧ SpecModel.validateRating "abc" = false
  ∧ forallb SpecModel.validRecord (players st) = false.
Proof. vm_compute. split_and!; reflexivity. Qed.

(** * Further properties of the component *)

(** ** The sorted view, for every field and direction *)

Section SortOrderFacts.
Context {A : Type}.
Variable comparefn : A → A → number.
Variable R : relation A.

Lemma sort_insert_HdRel_rel x y s :
  R y x → HdRel R y s → HdRel R y (sort_insert comparefn x s).
Proof.
  intros Hyx Hs. destruct s as [|z s]; simpl; [by constructor|].
  destruct (SortCompare comparefn x z <=? 0); constructor; [done|].
  by inversion Hs.
Qed.

Lemma sort_insert_Sorted_rel x s :
  (∀ y, y ∈ s → SortCompare comparefn x y ≤ 0 → R x y) →
  (∀ y, y ∈ s → 0 < SortCompare comparefn x y → R y x) →
  Sorted R s → Sorted R (sort_insert comparefn x s).
Proof.
  induction s as [|y s IH]; simpl; intros Hle Hgt Hs.
  - by repeat constructor.
  - destruct (Z.leb_spec (SortCompare comparefn x y) 0) as [Hc|Hc].
    + constructor; [done|]. constructor. apply Hle; [left|done].
    + inversion Hs as [|? ? Hs' Hhd]; subst. constructor.
      * apply IH; [| |done]; intros z Hz; [apply Hle|apply Hgt]; by right.
      * apply sort_insert_HdRel_rel; [|done]. apply Hgt; [left|done].
  Qed.

Lemma js_sort_Sorted_rel l :
  (∀ a b, a ∈ l → b ∈ l → SortCompare comparefn a b ≤ 0 → R a b) →
  (∀ a b, a ∈ l → b ∈ l → 0 < SortCompare comparefn a b → R b a) →
  Sorted R (js_sort comparefn l).
Proof.
  induction l as [|x l IH]; simpl; intros Hle Hgt; [constructor|].
  assert (Hin : ∀ y, y ∈ js_sort comparefn l → y ∈ l)
    by (intros y; by rewrite (js_sort_Permutation comparefn l)).
  apply sort_insert_Sorted_rel.
  - intros y Hy. apply Hle; [left|right; auto].
  - intros y Hy. apply Hgt; [left|right; auto].
  - apply IH; intros a b Ha Hb; [apply Hle|apply Hgt]; by right.
Qed.

(** A list that already is in the comparator's order is returned as it
    is. *)
Lemma js_sort_sorted_id l :
  (∀ a b, a ∈ l → b ∈ l → R a b → SortCompare comparefn a b ≤ 0) →
  Sorted R l → js_sort comparefn l = l.
Proof.
  intros Hag Hs. induction Hs as [|x l Hs IH Hhd]; [done|].
  simpl. rewrite IH by (intros a b Ha Hb; apply Hag; by right).
  destruct Hhd as [|y l Hxy]; [done|]. simpl.
  destruct (Z.leb_spec (SortCompare comparefn x y) 0) as [Hc|Hc]; [done|].
  assert (SortCompare comparefn x y ≤ 0); [|lia].
  apply Hag; [left|right; left|done].
Qed.

(** Elements that all compare as equal stay in the order they had. *)
Lemma js_sort_all_equal l :
  (∀ a b, a ∈ l → b ∈ l → SortCompare comparefn a b = 0) →
  js_sort comparefn l = l.
Proof.
  induction l as [|x l IH]; simpl; intros Heq; [done|].
  rewrite IH by (intros a b Ha Hb; apply Heq; by right).
  destruct l as [|y l]; [done|]. simpl.
  rewrite Heq; [done|left|right;left].
Qed.
End SortOrderFacts.

Lemma compare_text_order f d a b :
  f = F_name ∨ f = F_position →
  SortCompare (comparePlayers (mkSort f d)) a b ≤ 0
  ↔ viewOrder (mkSort f d) a b.
Proof.
  intros Hf.
  unfold SortCompare, comparePlayers, viewOrder, String.le, String.leb,
    String.ltb.
  destruct Hf as [-> | ->]; simpl.
  - rewrite (String.compare_antisym (name b) (name a)).
    destruct (String.compare (name a) (name b)), d; simpl; split; done.
  - rewrite (String.compare_antisym (position b) (position a)).
    destruct (String.compare (position a) (position b)), d; simpl;
      split; done.
Qed.

Lemma yearOrder_lookup_None y : y ∉ years → yearOrder !! y = None.
Proof. intros Hy. by apply not_elem_of_list_to_map_1. Qed.

Lemma compare_year_known d a b :
  year a ∈ years → year b ∈ years →
  SortCompare (comparePlayers (mkSort F_year d)) a b
  = match d with
    | asc => yearRank (year a) - yearRank (year b)
    | desc => yearRank (year b) - yearRank (year a)
    end.
Proof.
  intros Ha Hb. unfold SortCompare, comparePlayers; simpl.
  rewrite (yearOrder_lookup _ Ha), (yearOrder_lookup _ Hb).
  destruct d; simpl; [done|]. f_equal. lia.
Qed.

(** On sortable records the comparator is non-positive exactly when the
    configured order holds. *)
Lemma compare_viewOrder cfg a b :
  sortable (field cfg) a → sortable (field cfg) b →
  SortCompare (comparePlayers cfg) a b ≤ 0 ↔ viewOrder cfg a b.
Proof.
  destruct cfg as [f d]. simpl. destruct f; simpl; intros Ha Hb.
  - apply compare_text_order. by left.
  - apply compare_text_order. by right.
  - rewrite compare_year_known by done. unfold viewOrder; simpl.
    destruct d; lia.
  - rewrite compare_rating_parsed by done. unfold viewOrder; simpl.
    destruct d; lia.
Qed.

Lemma viewOrder_total cfg a b : viewOrder cfg a b ∨ viewOrder cfg b a.
Proof.
  destruct cfg as [[] []]; unfold viewOrder; simpl;
    try lia; apply (total String.le).
Qed.


Lemma sortedPlayers_Sorted cfg l :
  Forall (sortable (field cfg)) l →
  Sorted (viewOrder cfg) (sortedPlayers cfg l).
Proof.
  rewrite Forall_forall. intros Hl. apply js_sort_Sorted_rel.
  - intros a b Ha Hb. apply compare_viewOrder; auto.
  - intros a b Ha Hb Hgt.
    destruct (viewOrder_total cfg a b) as [Hab|]; [|done].
    apply compare_viewOrder in Hab; auto. lia.
Qed.

(** X1. Sorting by name or by position orders the records by the spelling
    of that field, code unit by code unit: upwards in ascending, downwards
    in descending direction, for every collection. *)
Theorem text_sort_is_lexical (l : list Player) :
  Sorted (λ a b, String.le (name a) (name b))
         (sortedPlayers (mkSort F_name asc) l)
  ∧ Sorted (λ a b, String.le (name b) (name a))
           (sortedPlayers (mkSort F_name desc) l)
  ∧ Sorted (λ a b, String.le (position a) (position b))
           (sortedPlayers (mkSort F_position asc) l)
  ∧ Sorted (λ a b, String.le (position b) (position a))
           (sortedPlayers (mkSort F_position desc) l).
Proof.
  assert (Hall : ∀ f, f = F_name ∨ f = F_position →
                      Forall (sortable f) l).
  { intros f [-> | ->]; by apply Forall_forall. }
  split_and!.
  - apply (sortedPlayers_Sorted (mkSort F_name asc)), Hall. by left.
  - apply (sortedPlayers_Sorted (mkSort F_name desc)), Hall. by left.
  - apply (sortedPlayers_Sorted (mkSort F_position asc)), Hall. by right.
  - apply (sortedPlayers_Sorted (mkSort F_position desc)), Hall. by right.
Qed.

(** X2. Whatever the sort configuration and whatever the records hold
    (unknown year labels and unreadable ratings included), the sorted view
    is a rearrangement of the collection: the same records, each as often
    as in the collection. *)
Theorem sorted_view_is_rearrangement (cfg : SortConfig) (l : list Player) :
  sortedPlayers cfg l ≡ₚ l
  ∧ length (sortedPlayers cfg l) = length l
  ∧ ∀ p, p ∈ sortedPlayers cfg l ↔ p ∈ l.
Proof.
  assert (Hp : sortedPlayers cfg l ≡ₚ l) by apply js_sort_Permutation.
  split_and!; [done | by rewrite Hp | intros p; by rewrite Hp].
Qed.

(** X3. A year label that the rank table does not have makes the year
    comparator yield NaN, which the sort reads as a tie with every other
    record, in both directions; a collection in which no record has a
    label of the table is shown in collection order. *)
Theorem unknown_year_compares_equal (d : Direction) :
  (∀ a b, year a ∉ years ∨ year b ∉ years →
          comparePlayers (mkSort F_year d) a b = NaN
          ∧ SortCompare (comparePlayers (mkSort F_year d)) a b = 0)
  ∧ (∀ l, Forall (λ p, year p ∉ years) l →
          sortedPlayers (mkSort F_year d) l = l).
Proof.
  assert (Hnan : ∀ a b, year a ∉ years ∨ year b ∉ years →
                        comparePlayers (mkSort F_year d) a b = NaN).
  { intros a b Hab. unfold comparePlayers; simpl.
    destruct Hab as [H|H]; rewrite (yearOrder_lookup_None _ H);
      destruct (yearOrder !! _), d; done. }
  split.
  - intros a b Hab. unfold SortCompare. by rewrite Hnan.
  - intros l Hl. rewrite Forall_forall in Hl. apply js_sort_all_equal.
    intros a b Ha Hb. unfold SortCompare. rewrite Hnan; [done|].
    left. by apply Hl.
Qed.

(** X4. The descending comparator is the ascending one with its arguments
    exchanged, for each of the four fields and all records. *)
Theorem descending_mirrors_ascending (f : SortField) (a b : Player) :
  comparePlayers (mkSort f desc) a b = comparePlayers (mkSort f asc) b a.
Proof.
  unfold comparePlayers, String.ltb; simpl. destruct f; simpl.
  - rewrite (String.compare_antisym (name b) (name a)).
    by destruct (String.compare (name a) (name b)).
  - rewrite (String.compare_antisym (position b) (position a)).
    by destruct (String.compare (position a) (position b)).
  - destruct (yearOrder !! year a), (yearOrder !! year b); simpl; try done.
    f_equal. lia.
  - done.
Qed.





(** With a tie the two views are not mirror images: the sort is stable, so
    tied records keep the collection order in both directions. *)
Example descending_view_with_tie :
  let l := [mkPlayer 1 "Ann" "QB" "SO" "80"; mkPlayer 2 "Ben" "RB" "JR" "80"] in
  sortedPlayers (mkSort F_rating desc) l = l
  ∧ reverse (sortedPlayers (mkSort F_rating asc) l) ≠ l.
Proof. split; [reflexivity|]. vm_compute. congruence. Qed.

(** X6. Sorting a view again with the same configuration changes nothing,
    for every field and direction, as long as the records are sortable on
    that field (year labels of the table, ratings that parse; names and
    positions always are). *)
Theorem sorting_twice_changes_nothing (cfg : SortConfig) (l : list Player) :
  Forall (sortable (field cfg)) l →
  sortedPlayers cfg (sortedPlayers cfg l) = sortedPlayers cfg l.
Proof.
  intros Hl.
  assert (Hs : Forall (sortable (field cfg)) (sortedPlayers cfg l)).
  { unfold sortedPlayers. by rewrite js_sort_Permutation. }
  rewrite Forall_forall in Hs.
  apply (js_sort_sorted_id _ (viewOrder cfg)).
  - intros a b Ha Hb Hab. apply compare_viewOrder; auto.
  - by apply sortedPlayers_Sorted.
Qed.

Lemma sorting_twice_changes_nothing_witness :
  Forall (sortable (field (mkSort F_year desc))) oneOfEachYear
  ∧ sortedPlayers (mkSort F_year desc)
      (sortedPlayers (mkSort F_year desc) oneOfEachYear)
    = sortedPlayers (mkSort F_year desc) oneOfEachYear.
Proof.
  assert (H : Forall (sortable (field (mkSort F_year desc))) oneOfEachYear).
  { change (Forall (λ p, year p ∈ years) oneOfEachYear).
    apply (bool_decide_unpack _). vm_compute. reflexivity. }
  split; [exact H|].
  exact (sorting_twice_changes_nothing (mkSort F_year desc) oneOfEachYear H).
Defined.

Lemma unknown_year_compares_equal_witness :
  let l := [mkPlayer 1 "Ann" "QB" "" "80"; mkPlayer 2 "Ben" "RB" "Senior" "71"] in
  Forall (λ p, year p ∉ years) l
  ∧ sortedPlayers (mkSort F_year asc) l = l.
Proof.
  intros l.
  assert (H : Forall (λ p, year p ∉ years) l).
  { apply (bool_decide_unpack _). vm_compute. reflexivity. }
  split; [exact H|].
  exact (proj2 (unknown_year_compares_equal asc) l H).
Defined.

(** ** More on the lifecycle controller *)

Section MoreLifecycleFacts.
Context `{Imports}.

(** X7. [requestSort(f)] selects field [f]; the direction becomes
    descending exactly when [f] was already selected in ascending
    direction, and ascending otherwise. So a second request on the same
    field flips the direction, a third flips it back, and a request on
    another field always starts ascending. The collection, the form, the
    edit session and the error mapping are not touched, and the effect
    does not fire. *)
Theorem request_sort_toggles (f : SortField) (st : State) :
  let st1 := step (EvRequestSort f) st in
  let st2 := step (EvRequestSort f) st1 in
  sortConfig st1
  = mkSort f (if decide (field (sortConfig st) = f
                         ∧ direction (sortConfig st) = asc)
              then desc else asc)
  ∧ field (sortConfig st2) = f
  ∧ direction (sortConfig st2) ≠ direction (sortConfig st1)
  ∧ sortConfig (step (EvRequestSort f) st2) = sortConfig st1
  ∧ (∀ g, g ≠ f → sortConfig (step (EvRequestSort g) st1) = mkSort g asc)
  ∧ players st1 = players st
  ∧ players_ref st1 = players_ref st
  ∧ newPlayer st1 = newPlayer st
  ∧ editingId st1 = editingId st
  ∧ errors st1 = errors st.
Proof.
  assert (Hstep : ∀ g s, step (EvRequestSort g) s = requestSort g s)
    by (intros; by apply playersEffect_same_ref).
  intros st1 st2. subst st1 st2. rewrite !Hstep.
  destruct (sortConfig st) as [f0 d0] eqn:Hcfg.
  unfold requestSort. simpl. rewrite Hcfg. simpl.
  split_and!; try done.
  - generalize (if decide (f0 = f ∧ d0 = asc) then desc else asc).
    intros [|]; [rewrite decide_True by done|
                 rewrite decide_False by (intros [_ [=]])]; discriminate.
  - generalize (if decide (f0 = f ∧ d0 = asc) then desc else asc).
    intros [|].
    + rewrite (decide_True (P := f = f ∧ asc = asc)) by done.
      rewrite decide_False by (intros [_ [=]]). done.
    + rewrite (decide_False (P := f = f ∧ desc = asc)) by (intros [_ [=]]).
      by rewrite decide_True.
  - intros g Hg. rewrite Hstep. unfold requestSort. simpl.
    rewrite decide_False; [done|]. intros [-> _]. done.
Qed.

(** X8. Adding a player and then removing the id it was given restores
    the collection, provided the draft validates and the clock reading is
    the id of no record already held. *)
Theorem add_then_remove_restores (now : Z) (st : State) :
  validDraft (newPlayer st) = true →
  now ∉ id <$> players st →
  players (run [EvAdd now; EvRemove now] st) = players st.
Proof.
  intros Hv Hfresh. unfold run; simpl foldl.
  rewrite (step_players (EvRemove now)). simpl.
  rewrite (step_players (EvAdd now)). simpl handle.
  rewrite addPlayer_players, Hv, filter_app.
  rewrite filter_cons_False, filter_nil, app_nil_r by (simpl; tauto).
  induction (players st) as [|p l IH]; [done|].
  rewrite fmap_cons in Hfresh. apply not_elem_of_cons in Hfresh as [Hp Hl].
  rewrite filter_cons_True by done. f_equal. by apply IH.
Qed.

(** X9. Opening a record for editing and saving at once changes nothing,
    provided the record is the only one with its id and its name is
    already in the form [capitalizeName] gives it. *)
Theorem edit_without_change_is_noop (r : Player) (st : State) :
  (∀ p, p ∈ players st → id p = id r → p = r) →
  capitalizeName (name r) = name r →
  players (run [EvStartEdit r; EvSaveEdit] st) = players st.
Proof.
  intros Huniq Hname. unfold run; simpl foldl.
  rewrite (step_players EvSaveEdit).
  assert (Hst : step (EvStartEdit r) st = startEditing r st)
    by (by apply playersEffect_same_ref).
  rewrite Hst. simpl.
  induction (players st) as [|p l IH]; [done|].
  rewrite fmap_cons. f_equal.
  - destruct (decide (Some (id p) = Some (id r))) as [[= Hid]|]; [|done].
    rewrite (Huniq p) by (done || left).
    unfold recordOfDraft; simpl. rewrite Hname. by destruct r.
  - apply IH. intros q Hq. apply Huniq. by right.
Qed.

(** X10. [saveEdit] neither adds nor removes a record and keeps every id
    in its place; a record whose id is not the one under edit is kept as
    it is, and every record that has the id under edit (all of them, if
    the id occurs twice) becomes the record built from the form. *)
Theorem save_edit_touches_only_target (st : State) :
  let st' := step EvSaveEdit st in
  length (players st') = length (players st)
  ∧ id <$> players st' = id <$> players st
  ∧ (∀ k p, players st !! k = Some p → Some (id p) ≠ editingId st →
            players st' !! k = Some p)
  ∧ (∀ k p, players st !! k = Some p → Some (id p) = editingId st →
            players st' !! k = Some (recordOfDraft (id p) (newPlayer st))).
Proof.
  intros st'. subst st'. rewrite (step_players EvSaveEdit).
  split_and!.
  - simpl. by rewrite length_fmap.
  - apply saveEdit_ids.
  - intros k p Hk Hne. simpl. rewrite list_lookup_fmap, Hk. simpl.
    by rewrite decide_False.
  - intros k p Hk He. simpl. rewrite list_lookup_fmap, Hk. simpl.
    by rewrite decide_True.
Qed.

(** X11. Removing an id twice is the same as removing it once, two
    removals can be done in either order, and after [remove(i)] no record
    has id [i], even if several had it. *)
Theorem remove_idempotent_and_commutes (i j : Z) (st : State) :
  players (run [EvRemove i; EvRemove i] st) = players (run [EvRemove i] st)
  ∧ players (run [EvRemove i; EvRemove j] st)
    = players (run [EvRemove j; EvRemove i] st)
  ∧ i ∉ id <$> players (run [EvRemove i] st).
Proof.
  unfold run; simpl foldl.
  rewrite !(step_players (EvRemove i)), !(step_players (EvRemove j)). simpl.
  rewrite !(step_players (EvRemove i)), !(step_players (EvRemove j)). simpl.
  split_and!.
  - induction (players st) as [|p l IH]; [done|].
    rewrite filter_cons. destruct (decide (id p ≠ i)); [|done].
    rewrite filter_cons_True by done. by f_equal.
  - induction (players st) as [|p l IH]; [done|].
    rewrite !filter_cons.
    destruct (decide (id p ≠ i)), (decide (id p ≠ j));
      rewrite ?filter_cons_True, ?filter_cons_False by tauto;
      by rewrite ?IH.
  - rewrite list_elem_of_fmap. intros (p & -> & Hp).
    apply list_elem_of_filter in Hp as [Hne _]. done.
Qed.

(** X12. Only [add] reports: it shows exactly one notification and
    republishes the error mapping. Every other event, [saveEdit] and
    [remove] included, shows no notification and leaves the error mapping
    as it was, so error messages of a refused [add] stay on display through
    an edit session. *)
Theorem only_add_reports (ev : Event) (st : State) :
  match ev with
  | EvAdd now =>
      length (toasts (step ev st)) = S (length (toasts st))
      ∧ errors (step ev st) = newErrors (newPlayer st)
  | _ =>
      toasts (step ev st) = toasts st ∧ errors (step ev st) = errors st
  end.
Proof.
  unfold step.
  destruct (playersEffect_frame st (handle ev st)) as (_ & _ & _ & _ & -> & ->).
  destruct ev; simpl; try done.
  unfold addPlayer, validatePlayer.
  destruct (bool_decide _); simpl; rewrite length_app; simpl; split; (lia || done).
Qed.
End MoreLifecycleFacts.

Section GateFacts.
Context `{Imports}.

Lemma validRecord_recordOfDraft i d :
  validRecord (recordOfDraft i d) = storable d.
Proof. done. Qed.

Lemma step_keeps_valid ev st :
  Forall (λ p, validRecord p = true) (players st) →
  gatedEvent ev st →
  Forall (λ p, validRecord p = true) (players (step ev st)).
Proof.
  intros Hvalid Hev. rewrite step_players.
  destruct ev; simpl handle; try done.
  - rewrite addPlayer_players. simpl in Hev.
    destruct (validDraft (newPlayer st)); [|done].
    apply Forall_app. split; [done|]. constructor; [|done].
    rewrite validRecord_recordOfDraft. by apply Hev.
  - simpl. apply Forall_fmap. simpl in Hev.
    eapply Forall_impl; [exact Hvalid|]. intros p Hp. simpl.
    destruct (decide _); [|done]. by rewrite validRecord_recordOfDraft.
  - simpl. rewrite Forall_forall in *. intros p Hp.
    apply list_elem_of_filter in Hp as [_ Hp]. by apply Hvalid.
Qed.

(** X13. The collection holds valid records only for as long as every
    [saveEdit] is issued with a form whose record passes the validators
    (and capitalizing the name of a draft that validates keeps it valid):
    from a collection of valid records such a run never reaches an invalid
    one. [remove] can never break this, and [add] only if capitalizing
    turns a valid name into an invalid one. *)
Theorem gated_runs_keep_records_valid (evs : list Event) (st : State) :
  Forall (λ p, validRecord p = true) (players st) →
  gatedRun evs st →
  Forall (λ p, validRecord p = true) (players (run evs st)).
Proof.
  revert st. induction evs as [|ev evs IH]; intros st Hvalid Hrun; [done|].
  destruct Hrun as [Hev Hrest]. rewrite run_cons.
  apply IH; [|done]. by apply step_keeps_valid.
Qed.

(** X14. [updatePlayer] on a position of the array and a text field: the
    change is stored only if the changed record passes the three
    validators, and is refused otherwise, so it never makes a collection
    of valid records invalid; the ids and all other positions are kept
    either way. Other than [addPlayer] and [saveEdit] it stores a name as
    typed, without capitalizing it. *)
Theorem update_player_is_gated (index : nat) (f : SortField) (value : string)
    (st : State) (p : Player) :
  players st !! index = Some p →
  ∃ st', updatePlayer index f value st = Some st'
    ∧ players st'
      = (if validRecord (setPlayerField f value p)
         then <[index := setPlayerField f value p]> (players st)
         else players st)
    ∧ id <$> players st' = id <$> players st
    ∧ (∀ k, k ≠ index → players st' !! k = players st !! k)
    ∧ (Forall (λ q, validRecord q = true) (players st) →
       Forall (λ q, validRecord q = true) (players st'))
    ∧ dom (errors st') = failingFields (draftOfPlayer (setPlayerField f value p)).
Proof.
  intros Hp. unfold updatePlayer. rewrite Hp. unfold validatePlayer.
  set (p' := setPlayerField f value p).
  assert (Hid : id p' = id p) by (by destruct f).
  assert (Hv : validDraft (draftOfPlayer p') = validRecord p') by done.
  pose proof (newErrors_size (draftOfPlayer p')) as Hsize.
  rewrite Hv in Hsize.
  eexists. split; [reflexivity|].
  destruct (validRecord p') eqn:Hvalid.
  - rewrite bool_decide_eq_true_2 by (by apply Hsize). simpl.
    split_and!; [done| | | |apply newErrors_dom].
    + rewrite list_fmap_insert, Hid. apply list_insert_id.
      by rewrite list_lookup_fmap, Hp.
    + intros k Hk. by apply list_lookup_insert_ne.
    + intros Hall. by apply Forall_insert.
  - rewrite bool_decide_eq_false_2
      by (intros Hs; apply Hsize in Hs; congruence).
    simpl. split_and!; try done. apply newErrors_dom.
Qed.
End GateFacts.

(** ** The controller at work, continued *)

Lemma request_sort_toggles_witness :
  let st := initialState [] in
  F_name ≠ F_rating
  ∧ sortConfig (SpecModel.step (EvRequestSort F_rating) st) = mkSort F_rating asc
  ∧ sortConfig (SpecModel.step (EvRequestSort F_name)
                  (SpecModel.step (EvRequestSort F_rating) st))
    = mkSort F_name asc.
Proof.
  intros st.
  assert (Hne : F_name ≠ F_rating) by discriminate.
  destruct (request_sort_toggles (H := SpecModel.imports) F_rating st)
    as (H1 & _ & _ & _ & Hother & _).
  split_and!; [exact Hne | exact H1 | exact (Hother F_name Hne)].
Defined.

Lemma add_then_remove_restores_witness :
  let st := SpecModel.run ((SpecModel.addAl 1001)
                           ++ (SpecModel.fillForm "Bob" "QB" "FR" "80"))
                          (initialState []) in
  validDraft (H := SpecModel.imports) (newPlayer st) = true
  ∧ (1000 ∉ id <$> players st)
  ∧ players (SpecModel.run [EvAdd 1000; EvRemove 1000] st) = [SpecModel.al].
Proof.
  intros st.
  assert (Hv : validDraft (H := SpecModel.imports) (newPlayer st) = true)
    by (vm_compute; reflexivity).
  assert (Hfresh : 1000 ∉ id <$> players st).
  { apply (bool_decide_unpack _). vm_compute. reflexivity. }
  split_and!; [exact Hv | exact Hfresh |].
  etransitivity;
    [exact (add_then_remove_restores (H := SpecModel.imports) 1000 st Hv Hfresh)|].
  vm_compute. reflexivity.
Defined.

Lemma edit_without_change_is_noop_witness :
  let st := SpecModel.run (SpecModel.addBob ++ SpecModel.addAl 1001)
                          (initialState []) in
  (∀ p, p ∈ players st → id p = id SpecModel.bob → p = SpecModel.bob)
  ∧ SpecModel.capitalizeName (name SpecModel.bob) = name SpecModel.bob
  ∧ players (SpecModel.run [EvStartEdit SpecModel.bob; EvSaveEdit] st)
    = [SpecModel.bob; SpecModel.al].
Proof.
  intros st.
  assert (Hu : ∀ p, p ∈ players st → id p = id SpecModel.bob → p = SpecModel.bob).
  { apply (Forall_forall (λ p, id p = id SpecModel.bob → p = SpecModel.bob)).
    apply (bool_decide_unpack _). vm_compute. reflexivity. }
  assert (Hn : SpecModel.capitalizeName (name SpecModel.bob) = name SpecModel.bob)
    by (vm_compute; reflexivity).
  split_and!; [exact Hu | exact Hn |].
  etransitivity;
    [exact (edit_without_change_is_noop (H := SpecModel.imports)
              SpecModel.bob st Hu Hn)|].
  vm_compute. reflexivity.
Defined.

Lemma save_edit_touches_only_target_witness :
  let st := SpecModel.run (SpecModel.addBob ++ SpecModel.addAl 1001
                           ++ [EvStartEdit SpecModel.bob; EvChange F_rating "75"])
                          (initialState []) in
  players st !! 1%nat = Some SpecModel.al
  ∧ Some (id SpecModel.al) ≠ editingId st
  ∧ players (SpecModel.step EvSaveEdit st) !! 1%nat = Some SpecModel.al
  ∧ players st !! 0%nat = Some SpecModel.bob
  ∧ Some (id SpecModel.bob) = editingId st
  ∧ players (SpecModel.step EvSaveEdit st) !! 0%nat
    = Some (mkPlayer 1000 "Bob" "QB" "FR" "75").
Proof.
  intros st.
  destruct (save_edit_touches_only_target (H := SpecModel.imports) st)
    as (_ & _ & Hother & Htarget).
  assert (H1 : players st !! 1%nat = Some SpecModel.al) by reflexivity.
  assert (H2 : Some (id SpecModel.al) ≠ editingId st) by (vm_compute; congruence).
  assert (H3 : players st !! 0%nat = Some SpecModel.bob) by reflexivity.
  assert (H4 : Some (id SpecModel.bob) = editingId st) by reflexivity.
  split_and!; [exact H1 | exact H2 | exact (Hother _ _ H1 H2)
              | exact H3 | exact H4 |].
  etransitivity; [exact (Htarget _ _ H3 H4)|]. vm_compute. reflexivity.
Defined.

Lemma gated_runs_keep_records_valid_witness :
  let evs := SpecModel.addBob
             ++ [EvStartEdit SpecModel.bob; EvChange F_rating "75"; EvSaveEdit] in
  Forall (λ p, validRecord (H := SpecModel.imports) p = true)
         (players (initialState []))
  ∧ gatedRun (H := SpecModel.imports) evs (initialState [])
  ∧ Forall (λ p, validRecord (H := SpecModel.imports) p = true)
           (players (SpecModel.run evs (initialState []))).
Proof.
  intros evs.
  assert (H0 : Forall (λ p, validRecord (H := SpecModel.imports) p = true)
                      (players (initialState []))) by constructor.
  assert (Hg : gatedRun (H := SpecModel.imports) evs (initialState [])).
  { cbn -[step]. repeat split; try (intros _); vm_compute; reflexivity. }
  split_and!; [exact H0 | exact Hg |].
  exact (gated_runs_keep_records_valid (H := SpecModel.imports) evs _ H0 Hg).
Defined.

Lemma update_player_is_gated_witness :
  let st := SpecModel.run SpecModel.addBob (initialState []) in
  players st !! 0%nat = Some SpecModel.bob
  ∧ (∃ st', updatePlayer (H := SpecModel.imports) 0 F_rating "abc" st = Some st'
            ∧ players st' = [SpecModel.bob])
  ∧ (∃ st', updatePlayer (H := SpecModel.imports) 0 F_rating "91" st = Some st'
            ∧ players st' = [mkPlayer 1000 "Bob" "QB" "FR" "91"]).
Proof.
  intros st.
  assert (H0 : players st !! 0%nat = Some SpecModel.bob) by reflexivity.
  split_and!; [exact H0 | |].
  - destruct (update_player_is_gated (H := SpecModel.imports)
                0 F_rating "abc" st _ H0) as (st' & Hst' & Hp & _).
    exists st'. split; [exact Hst'|].
    etransitivity; [exact Hp|]. vm_compute. reflexivity.
  - destruct (update_player_is_gated (H := SpecModel.imports)
                0 F_rating "91" st _ H0) as (st' & Hst' & Hp & _).
    exists st'. split; [exact Hst'|].
    etransitivity; [exact Hp|]. vm_compute. reflexivity.
Defined.

(** ** The coach profile *)

Lemma orEmpty_Some v : CoachProfile.orEmpty (Some v) = v.
Proof. simpl. by destruct (String.eqb_spec v "") as [->|]. Qed.

(** X15. Save, then load the page again: the profile shows the coach and
    school names that were in the form when Save was pressed, whatever
    they are (empty ones included). Save closes the pop-over and writes
    the keys "coachName" and "schoolName" only: every other key of the
    storage, such as the one of the roster, keeps its value. After the
    reload the button shows the two names if both are non-empty and the
    invitation otherwise. *)
Theorem coach_profile_save_reload (w : CoachProfile.World) :
  let p := CoachProfile.profile w in
  let w' := CoachProfile.handleSave w in
  let p' := CoachProfile.profile (CoachProfile.reload w') in
  CoachProfile.coachName p' = CoachProfile.coachName p
  ∧ CoachProfile.schoolName p' = CoachProfile.schoolName p
  ∧ CoachProfile.isEditing (CoachProfile.profile w') = false
  ∧ (∀ k, k ≠ "coachName" → k ≠ "schoolName" →
          CoachProfile.storage w' !! k = CoachProfile.storage w !! k)
  ∧ CoachProfile.buttonLabel p'
    = (if negb (String.eqb (CoachProfile.coachName p) "")
          && negb (String.eqb (CoachProfile.schoolName p) "")
       then Some (CoachProfile.Names (CoachProfile.coachName p)
                                     (CoachProfile.schoolName p))
       else Some CoachProfile.Invitation).
Proof.
  intros p w' p'.
  assert (Hc : CoachProfile.coachName p' = CoachProfile.coachName p).
  { subst p' w'. unfold CoachProfile.reload, CoachProfile.mountEffect,
      CoachProfile.handleSave. cbn [CoachProfile.profile CoachProfile.storage
      CoachProfile.coachName].
    rewrite lookup_insert_ne by done. rewrite lookup_insert_eq.
    apply orEmpty_Some. }
  assert (Hs : CoachProfile.schoolName p' = CoachProfile.schoolName p).
  { subst p' w'. unfold CoachProfile.reload, CoachProfile.mountEffect,
      CoachProfile.handleSave. cbn [CoachProfile.profile CoachProfile.storage
      CoachProfile.schoolName].
    rewrite lookup_insert_eq. apply orEmpty_Some. }
  split_and!; [done | done | done | |].
  - intros k Hk1 Hk2. subst w'. unfold CoachProfile.handleSave.
    cbn [CoachProfile.storage]. by rewrite !lookup_insert_ne.
  - unfold CoachProfile.buttonLabel. rewrite Hc, Hs. done.
Qed.

Lemma coach_profile_save_reload_witness :
  let w := CoachProfile.mkWorld
             (CoachProfile.mkProfile "Kirby" "Georgia" true true)
             {["players" := "[]"]} in
  "players" ≠ "coachName" ∧ "players" ≠ "schoolName"
  ∧ CoachProfile.storage (CoachProfile.handleSave w) !! "players" = Some "[]".
Proof.
  intros w.
  assert (H1 : "players" ≠ "coachName") by discriminate.
  assert (H2 : "players" ≠ "schoolName") by discriminate.
  destruct (coach_profile_save_reload w) as (_ & _ & _ & Hframe & _).
  split_and!; [exact H1 | exact H2 |].
  etransitivity; [exact (Hframe "players" H1 H2)|]. vm_compute. reflexivity.
Defined.

(** X16. Typing into the pop-over and opening or closing it never writes
    to the storage: after any such events without Save the storage is as
    before, so a reload shows what was stored, not what was typed. *)
Theorem coach_profile_unsaved_edits_are_lost
    (evs : list CoachProfile.Event) (w : CoachProfile.World) :
  forallb (λ ev, negb (CoachProfile.isSave ev)) evs = true →
  CoachProfile.storage (CoachProfile.run evs w) = CoachProfile.storage w
  ∧ CoachProfile.reload (CoachProfile.run evs w) = CoachProfile.reload w.
Proof.
  intros Hno.
  assert (Hst : CoachProfile.storage (CoachProfile.run evs w)
                = CoachProfile.storage w).
  { revert w. induction evs as [|ev evs IH]; intros w; [done|].
    simpl in Hno. apply andb_prop in Hno as [Hev Hrest].
    unfold CoachProfile.run. simpl foldl.
    change (CoachProfile.storage (CoachProfile.run evs (CoachProfile.handle ev w))
            = CoachProfile.storage w).
    rewrite IH by done. by destruct ev. }
  split; [done|]. unfold CoachProfile.reload. by rewrite Hst.
Qed.

Lemma coach_profile_unsaved_edits_are_lost_witness :
  let w := CoachProfile.reload
             (CoachProfile.mkWorld CoachProfile.initialProfile
                {["coachName" := "Kirby"; "schoolName" := "Georgia"]}) in
  let evs := [CoachProfile.OpenChange true; CoachProfile.SetCoachName "Nick";
              CoachProfile.OpenChange false] in
  forallb (λ ev, negb (CoachProfile.isSave ev)) evs = true
  ∧ CoachProfile.coachName (CoachProfile.profile (CoachProfile.run evs w)) = "Nick"
  ∧ CoachProfile.coachName
      (CoachProfile.profile (CoachProfile.reload (CoachProfile.run evs w)))
    = "Kirby".
Proof.
  intros w evs.
  assert (H : forallb (λ ev, negb (CoachProfile.isSave ev)) evs = true)
    by reflexivity.
  destruct (coach_profile_unsaved_edits_are_lost evs w H) as [_ Hr].
  split_and!; [exact H | reflexivity |].
  rewrite Hr. vm_compute. reflexivity.
Defined.
